(** * interval_map: a shallow embedding of [src/interval_map.cpp]

    The class [interval_map<K,V>] keeps a default value [m_valBegin] and a
    [std::map<K,V>] of breakpoints.  The ordered map is modelled by the
    sequence of its nodes in iteration order, a list of [(key, value)] pairs;
    a [std::map] always iterates in strictly increasing key order, which is
    the predicate [ordered] below.  Keys are the integers of the test harness
    ([K = int]); only their comparison is used, so they are modelled in [Z].
    The value type is any type with a decidable equality ([operator==]). *)

From Stdlib Require Import ZArith Lia Ascii.
From stdpp Require Import base decidable option list sorting strings.

Local Open Scope Z_scope.

Section interval_map.
Context {V : Type} `{EqDecision V}.

(** A node of the map: [first] is the key, [second] the value. *)
Definition entry : Type := Z * V.

(** An iterator designates a node of the map, or is [end()] ([None]).
    Keys are unique in a [std::map], so the pair held by the node names
    the node. *)
Definition iterator : Type := option entry.

Record interval_map : Type := Build_interval_map
  { m_valBegin : V;          (* default value, left of the first key *)
    m_map : list entry }.    (* the nodes of the std::map, in key order *)

(** [interval_map(V const& default_value)] *)
Definition new (default_value : V) : interval_map :=
  {| m_valBegin := default_value; m_map := [] |}.

(** ** The [std::map] operations used by the class *)

(** [m.begin()] *)
Definition map_begin (m : list entry) : iterator := head m.

(** [m.end()] *)
Definition map_end : iterator := None.

(** [m.lower_bound(k)]: the first node whose key is not less than [k]. *)
Fixpoint lower_bound (m : list entry) (k : Z) : iterator :=
  match m with
  | [] => map_end
  | x :: m' => if decide (x.1 < k) then lower_bound m' k else Some x
  end.

(** [m.upper_bound(k)]: the first node whose key is greater than [k]. *)
Fixpoint upper_bound (m : list entry) (k : Z) : iterator :=
  match m with
  | [] => map_end
  | x :: m' => if decide (k < x.1) then Some x else upper_bound m' k
  end.

(** [std::prev(it)] / [--it]: the node before [it] in iteration order; the
    node before [end()] is the last one.  [std::prev(m.begin())] is
    undefined in C++ and is [None] here. *)
Fixpoint prev (m : list entry) (it : iterator) : iterator :=
  match m with
  | [] => None
  | x :: m' => if decide (map_begin m' = it) then Some x else prev m' it
  end.

(** The second half of [m.erase(first, last)]: drop nodes up to, and not
    including, [last]. *)
Fixpoint erase_until (m : list entry) (last : iterator) : list entry :=
  match m with
  | [] => []
  | x :: m' => if decide (Some x = last) then m else erase_until m' last
  end.

(** [m.erase(first, last)]: remove the nodes of the range [[first, last)]. *)
Fixpoint erase (m : list entry) (first last : iterator) : list entry :=
  match m with
  | [] => []
  | x :: m' =>
      if decide (Some x = first) then erase_until m last
      else x :: erase m' first last
  end.

(** [m[k] = v]: overwrite the node of key [k], or insert one in key order. *)
Fixpoint subscript_assign (m : list entry) (k : Z) (v : V) : list entry :=
  match m with
  | [] => [(k, v)]
  | x :: m' =>
      if decide (k < x.1) then (k, v) :: m
      else if decide (k = x.1) then (k, v) :: m'
      else x :: subscript_assign m' k v
  end.

(** The loop of lines 59-69, entered with [it] at the node [cur] and the
    nodes [rest] after it: when the next node carries the value of [it] it
    is erased and [it] stays, otherwise [it] advances. *)
Fixpoint canonicalize_from (cur : entry) (rest : list entry) : list entry :=
  match rest with
  | [] => [cur]
  | next :: rest' =>
      if decide (cur.2 = next.2) then canonicalize_from cur rest'
      else cur :: canonicalize_from next rest'
  end.

Definition canonicalize (m : list entry) : list entry :=
  match m with
  | [] => []
  | x :: m' => canonicalize_from x m'
  end.

(** ** The two public operations *)

(** The test of lines 38-40: [itLow != m_map.begin()] and
    [std::prev(itLow)->second == val].  An iterator other than [begin()] has
    a predecessor, so the [None] case is not reached. *)
Definition prev_has_value (m : list entry) (itLow : iterator) (val : V) : bool :=
  if decide (itLow = map_begin m) then false
  else match prev m itLow with
       | Some itPrev => bool_decide (itPrev.2 = val)
       | None => false
       end.

(** [assign(keyBegin, keyEnd, val)] *)
Definition assign (s : interval_map) (keyBegin keyEnd : Z) (val : V)
  : interval_map :=
  if decide (keyBegin >= keyEnd) then s
  else
    let m := m_map s in
    let itLow := lower_bound m keyBegin in
    let itHigh := lower_bound m keyEnd in
    if prev_has_value m itLow val then
      {| m_valBegin := m_valBegin s; m_map := erase m itLow itHigh |}
    else
      let m1 := erase m itLow itHigh in
      let m2 := subscript_assign m1 keyBegin val in
      let m3 := match itHigh with
                | Some x =>
                    if decide (x.1 > keyEnd)
                    then subscript_assign m2 keyEnd x.2
                    else m2
                | None => m2
                end in
      {| m_valBegin := m_valBegin s; m_map := canonicalize m3 |}.

(** [operator[](key)], a [const] member: it reads the state and returns a
    value, the state is not an output. *)
Definition lookup (s : interval_map) (key : Z) : V :=
  let m := m_map s in
  let it := upper_bound m key in
  if decide (it = map_begin m) then m_valBegin s
  else match prev m it with
       | Some x => x.2
       | None => m_valBegin s   (* not reached, see [prev_upper_bound] *)
       end.

(** A sequence of [assign] calls, applied in order. *)
Definition assign_all (s : interval_map) (calls : list (Z * Z * V))
  : interval_map :=
  foldl (λ s c, assign s c.1.1 c.1.2 c.2) s calls.

End interval_map.

(** ** Vocabulary of the properties *)

Section properties.
Context {V : Type} `{EqDecision V}.

(** The iteration order of a [std::map]: keys strictly increase. *)
Definition ordered (m : list (@entry V)) : Prop :=
  StronglySorted (λ x y, x.1 < y.1) m.

(** [x] is the stored breakpoint of greatest key among those of key at
    most [k]. *)
Definition greatest_upto (m : list (@entry V)) (k : Z) (x : entry) : Prop :=
  x ∈ m ∧ x.1 ≤ k ∧ ∀ y, y ∈ m → y.1 ≤ k → y.1 ≤ x.1.

(** [x] is the stored breakpoint of greatest key among those of key
    strictly less than [b]. *)
Definition greatest_below (m : list (@entry V)) (b : Z) (x : entry) : Prop :=
  x ∈ m ∧ x.1 < b ∧ ∀ y, y ∈ m → y.1 < b → y.1 ≤ x.1.

(** [x] is the stored breakpoint of least key among those of key at least
    [e]. *)
Definition least_from (m : list (@entry V)) (e : Z) (x : entry) : Prop :=
  x ∈ m ∧ e ≤ x.1 ∧ ∀ y, y ∈ m → e ≤ y.1 → x.1 ≤ y.1.

(** Every breakpoint of [m] changes the value in force on its left, [v]
    being the value in force before the first one. *)
Fixpoint changes_from (v : V) (m : list (@entry V)) : Prop :=
  match m with
  | [] => True
  | x :: m' => v ≠ x.2 ∧ changes_from x.2 m'
  end.

(** No two consecutive breakpoints carry equal values. *)
Definition no_adjacent_equal (m : list (@entry V)) : Prop :=
  match m with
  | [] => True
  | x :: m' => changes_from x.2 m'
  end.

(** Canonical form, the default value being paired with the first
    breakpoint. *)
Definition canonical (s : @interval_map V) : Prop :=
  changes_from (m_valBegin s) (m_map s).

(** The value in force at [k], read off the breakpoint sequence from the
    left: [d] until a breakpoint of key at most [k] replaces it. *)
Fixpoint value_at (d : V) (m : list (@entry V)) (k : Z) : V :=
  match m with
  | [] => d
  | x :: m' => if decide (k < x.1) then d else value_at x.2 m' k
  end.

End properties.

(** ** The test harness, [K = int] and [V = char] *)

(** [interval_map<int, char> imap('A')] *)
Definition imap0 : interval_map := new "A"%char.

(** The state of [IntervalMapTest] after its two calls. *)
Definition imap_test : interval_map :=
  assign (assign imap0 1 3 "B"%char) 5 7 "C"%char.

(** A state reached by two calls, with breakpoints at 5 and 7. *)
Definition imap_57 : interval_map :=
  assign_all imap0 [(5, 6, "B"%char); (7, 8, "C"%char)].

(** A state reached by two calls, with breakpoints at 1 and 10. *)
Definition imap_110 : interval_map :=
  assign_all imap0 [(1, 2, "B"%char); (10, 11, "C"%char)].

(** * Proofs *)

(** Case analysis on membership in a list given by its elements. *)
Ltac elem_cases H :=
  repeat (apply elem_of_cons in H as [->|H]);
  try (by apply elem_of_nil in H).

(** Key order of a map given by its elements. *)
Ltac ordered_by_computation := vm_compute; repeat constructor.

Section facts.
Context {V : Type} `{EqDecision V}.
Implicit Types (m : list (@entry V)) (x y : @entry V) (s : @interval_map V).
Implicit Types (k b e : Z) (v d : V).

(** ** Order *)

Lemma ordered_cons x m :
  ordered (x :: m) ↔ (∀ y, y ∈ m → x.1 < y.1) ∧ ordered m.
Proof.
  unfold ordered. rewrite StronglySorted_cons, Forall_forall. tauto.
Qed.

Lemma ordered_app m1 m2 :
  ordered (m1 ++ m2) ↔
    (∀ x y, x ∈ m1 → y ∈ m2 → x.1 < y.1) ∧ ordered m1 ∧ ordered m2.
Proof. apply StronglySorted_app. Qed.

Lemma ordered_nil : ordered ([] : list (@entry V)).
Proof. constructor. Qed.

(** ** Bounds *)

Lemma lower_bound_Some m k y :
  lower_bound m k = Some y → k ≤ y.1 ∧ y ∈ m.
Proof.
  induction m as [|x m IH]; simpl; [done|].
  case_decide.
  - intros [? ?]%IH; split; [done|by right].
  - intros [= <-]; split; [lia|by left].
Qed.

Lemma upper_bound_Some m k y :
  upper_bound m k = Some y → k < y.1 ∧ y ∈ m.
Proof.
  induction m as [|x m IH]; simpl; [done|].
  case_decide.
  - intros [= <-]; split; [lia|by left].
  - intros [? ?]%IH; split; [done|by right].
Qed.

(** ** [operator[]] reads the value in force *)

Lemma value_at_head d m k :
  (∀ y, head m = Some y → k < y.1) → value_at d m k = d.
Proof.
  destruct m as [|x m]; simpl; [done|]. intros Hh.
  rewrite decide_True; [done|]. by apply Hh.
Qed.

Lemma value_at_above d m k :
  (∀ y, y ∈ m → k < y.1) → value_at d m k = d.
Proof.
  intros Hm. apply value_at_head. intros y Hy. apply Hm.
  by apply head_Some_elem_of.
Qed.

Lemma value_at_app d m1 m2 k :
  (∀ x, x ∈ m1 → x.1 ≤ k) →
  value_at d (m1 ++ m2) k = value_at (value_at d m1 k) m2 k.
Proof.
  revert d. induction m1 as [|z m1 IH]; intros d Hm1; simpl; [done|].
  assert (z.1 ≤ k) by (apply Hm1; by left).
  rewrite !decide_False by lia.
  apply IH. intros x Hx. apply Hm1. by right.
Qed.

Lemma value_at_last d m k x :
  (∀ y, y ∈ m → y.1 ≤ k) → last m = Some x → value_at d m k = x.2.
Proof.
  intros Hm [m' ->]%last_Some.
  rewrite value_at_app.
  - simpl. rewrite decide_False; [done|].
    assert (x.1 ≤ k); [|lia]. apply Hm. rewrite elem_of_app. right. by left.
  - intros y Hy. apply Hm. rewrite elem_of_app. by left.
Qed.

(** [std::prev] of the upper bound exists whenever the upper bound is not
    [begin()], and holds the value in force. *)
Lemma prev_upper_bound d m k :
  upper_bound m k ≠ map_begin m →
  ∃ x, prev m (upper_bound m k) = Some x ∧ x.2 = value_at d m k.
Proof.
  revert d. induction m as [|x m IH]; intros d; simpl; [done|].
  case_decide as Hk; [done|]. intros _.
  case_decide as Hb.
  - exists x. split; [done|]. symmetry. apply value_at_head.
    intros y Hy. unfold map_begin in Hb. rewrite Hy in Hb.
    symmetry in Hb. by apply upper_bound_Some in Hb as [? _].
  - apply IH. congruence.
Qed.

Lemma lookup_value_at s k :
  lookup s k = value_at (m_valBegin s) (m_map s) k.
Proof.
  unfold lookup. case_decide as Hb.
  - symmetry. apply value_at_head. intros y Hy.
    unfold map_begin in Hb. rewrite Hy in Hb.
    by apply upper_bound_Some in Hb as [? _].
  - by destruct (prev_upper_bound (m_valBegin s) _ _ Hb) as (x & -> & ->).
Qed.

Lemma value_at_greatest d m k x :
  ordered m → greatest_upto m k x → value_at d m k = x.2.
Proof.
  revert d. induction m as [|z m IH]; intros d Hord (Hin & Hle & Hmax).
  - by apply elem_of_nil in Hin.
  - apply ordered_cons in Hord as [Hz Hord]. simpl.
    assert (z.1 ≤ x.1).
    { apply elem_of_cons in Hin as [->|Hin]; [lia|].
      specialize (Hz _ Hin). lia. }
    rewrite decide_False by lia.
    apply elem_of_cons in Hin as [->|Hin].
    + apply value_at_above. intros y Hy.
      specialize (Hz _ Hy).
      destruct (decide (y.1 ≤ k)) as [Hyk|]; [|lia].
      assert (y.1 ≤ z.1); [|lia]. apply Hmax; [by right|done].
    + apply IH; [done|]. repeat split; [done..|].
      intros y Hy ?. apply Hmax; [by right|done].
Qed.

(** ** The canonicalization loop *)

Lemma canonicalize_from_elem x m y :
  y ∈ canonicalize_from x m → y ∈ x :: m.
Proof.
  revert x. induction m as [|z m IH]; intros x; simpl; [done|].
  case_decide.
  - intros [->|?]%IH%elem_of_cons; [by left|by do 2 right].
  - intros [->|Hy]%elem_of_cons; [by left|]. right. by apply IH.
Qed.

Lemma canonicalize_from_ordered x m :
  ordered (x :: m) → ordered (canonicalize_from x m).
Proof.
  revert x. induction m as [|z m IH]; intros x Hord; simpl; [done|].
  apply ordered_cons in Hord as [Hx Hord].
  case_decide.
  - apply IH. apply ordered_cons. split; [|by apply ordered_cons in Hord as [_ ?]].
    intros y Hy. apply Hx. by right.
  - apply ordered_cons. split; [|by apply IH].
    intros y Hy%canonicalize_from_elem. by apply Hx.
Qed.

Lemma canonicalize_ordered m : ordered m → ordered (canonicalize m).
Proof. destruct m; [done|]. apply canonicalize_from_ordered. Qed.

Lemma canonicalize_from_value_at d x m k :
  ordered (x :: m) →
  value_at d (canonicalize_from x m) k = value_at d (x :: m) k.
Proof.
  revert d x. induction m as [|z m IH]; intros d x Hord; [done|].
  apply ordered_cons in Hord as [Hx Hord].
  pose proof Hord as [Hz Hord']%ordered_cons.
  cbn [canonicalize_from]. case_decide as Heq.
  - rewrite IH.
    + simpl. case_decide; [done|]. case_decide; [|by rewrite Heq].
      apply value_at_above. intros y Hy. specialize (Hz _ Hy). lia.
    + apply ordered_cons. split; [|done]. intros y Hy. apply Hx. by right.
  - simpl. case_decide; [done|]. by rewrite IH.
Qed.

Lemma canonicalize_value_at d m k :
  ordered m → value_at d (canonicalize m) k = value_at d m k.
Proof. destruct m; [done|]. apply canonicalize_from_value_at. Qed.

(** The loop leaves [it]'s node first and no two neighbours of equal
    value. *)
Lemma canonicalize_from_changes x m :
  ∃ r, canonicalize_from x m = x :: r ∧ changes_from x.2 r.
Proof.
  revert x. induction m as [|z m IH]; intros x; simpl.
  - by exists [].
  - case_decide as Heq; [apply IH|].
    destruct (IH z) as (r & -> & Hr). by exists (z :: r).
Qed.

Lemma canonicalize_no_adjacent_equal m : no_adjacent_equal (canonicalize m).
Proof.
  destruct m as [|x m]; [done|]. simpl.
  by destruct (canonicalize_from_changes x m) as (r & -> & Hr).
Qed.

(** ** The three parts of the map around [[keyBegin, keyEnd)] *)

Local Abbreviation below b m := (filter (λ y : entry, y.1 < b) m).
Local Abbreviation from e m := (filter (λ y : entry, e ≤ y.1) m).

Lemma filter_none (P : @entry V → Prop) `{!∀ y, Decision (P y)} m :
  (∀ y, y ∈ m → ¬ P y) → filter P m = [].
Proof.
  intros Hm. apply elem_of_nil_inv. intros y [? ?]%list_elem_of_filter.
  by apply (Hm y).
Qed.

Lemma filter_all (P : @entry V → Prop) `{!∀ y, Decision (P y)} m :
  (∀ y, y ∈ m → P y) → filter P m = m.
Proof.
  induction m as [|x m IH]; intros Hm; [done|].
  rewrite filter_cons_True by (apply Hm; by left).
  f_equal. apply IH. intros y Hy. apply Hm. by right.
Qed.

Lemma ordered_filter (P : @entry V → Prop) `{!∀ y, Decision (P y)} m :
  ordered m → ordered (filter P m).
Proof.
  induction m as [|x m IH]; [done|].
  intros [Hx Hord]%ordered_cons. rewrite filter_cons.
  case_decide; [|by apply IH].
  apply ordered_cons. split; [|by apply IH].
  intros y [_ Hy]%list_elem_of_filter. by apply Hx.
Qed.

Lemma lower_bound_head m e : lower_bound m e = head (from e m).
Proof.
  induction m as [|x m IH]; simpl; [done|].
  rewrite filter_cons. repeat case_decide; try lia; done.
Qed.

Lemma erase_until_lower_bound m e :
  ordered m → erase_until m (lower_bound m e) = from e m.
Proof.
  induction m as [|x m IH]; [done|].
  intros [Hx Hord]%ordered_cons. cbn [erase_until lower_bound].
  destruct (decide (x.1 < e)) as [Hxe|Hxe].
  - rewrite filter_cons_False by lia. rewrite decide_False; [by apply IH|].
    intros Heq. symmetry in Heq. apply lower_bound_Some in Heq as [? _]. lia.
  - rewrite filter_cons_True by lia. rewrite decide_True by done.
    f_equal. symmetry.
    apply filter_all. intros y Hy. specialize (Hx _ Hy). lia.
Qed.

Lemma erase_lower_bounds m b e :
  ordered m → b ≤ e →
  erase m (lower_bound m b) (lower_bound m e) = below b m ++ from e m.
Proof.
  intros Hord Hbe. induction m as [|x m IH]; [done|].
  pose proof Hord as [Hx Hord']%ordered_cons.
  cbn [erase]. rewrite !filter_cons.
  destruct (decide (x.1 < b)) as [Hxb|Hxb].
  - assert (lower_bound (x :: m) b = lower_bound m b) as ->
      by (simpl; by rewrite decide_True).
    assert (lower_bound (x :: m) e = lower_bound m e) as ->
      by (simpl; rewrite decide_True; [done|lia]).
    rewrite decide_False.
    + rewrite decide_False by lia. simpl. f_equal. by apply IH.
    + intros Heq. symmetry in Heq.
      apply lower_bound_Some in Heq as [? _]. lia.
  - assert (lower_bound (x :: m) b = Some x) as ->
      by (simpl; by rewrite decide_False).
    rewrite decide_True by done.
    rewrite erase_until_lower_bound by done.
    rewrite (filter_none (λ y, y.1 < b) m); [by rewrite filter_cons|].
    intros y Hy. specialize (Hx _ Hy). lia.
Qed.

Lemma lower_bound_begin m b :
  ordered m → lower_bound m b = map_begin m ↔ below b m = [].
Proof.
  destruct m as [|x m]; [done|].
  intros [Hx Hord]%ordered_cons. simpl. rewrite filter_cons.
  case_decide as Hxb.
  - split; [|done]. intros [? _]%lower_bound_Some. lia.
  - split; [intros _|done].
    apply filter_none. intros y Hy. specialize (Hx _ Hy). lia.
Qed.

(** [std::prev(itLow)] is the last node of key below [keyBegin]. *)
Lemma prev_lower_bound m b :
  ordered m → lower_bound m b ≠ map_begin m →
  prev m (lower_bound m b) = last (below b m).
Proof.
  induction m as [|x m IH]; [done|].
  intros [Hx Hord]%ordered_cons. cbn [lower_bound prev].
  rewrite filter_cons. case_decide as Hxb; [intros _|done].
  case_decide as Hb.
  - symmetry in Hb. apply lower_bound_begin in Hb as ->; done.
  - assert (below b m ≠ []) as Hne by (by rewrite <-lower_bound_begin).
    rewrite IH, last_cons by done.
    destruct (last (below b m)) eqn:Hl; [done|]. by apply last_None in Hl.
Qed.

Lemma prev_has_value_true m b v :
  ordered m →
  prev_has_value m (lower_bound m b) v = true ↔
    ∃ x, last (below b m) = Some x ∧ x.2 = v.
Proof.
  intros Hord. unfold prev_has_value. case_decide as Hb.
  - apply lower_bound_begin in Hb as ->; [|done]. split; [done|].
    by intros (x & ? & _).
  - rewrite prev_lower_bound by done.
    destruct (last (below b m)) as [x|].
    + rewrite bool_decide_eq_true. split; [by exists x|].
      by intros (? & [= <-] & ?).
    + split; [done|]. by intros (x & ? & _).
Qed.

Lemma greatest_below_last m b x :
  ordered m → greatest_below m b x → last (below b m) = Some x.
Proof.
  induction m as [|z m IH]; intros Hord (Hin & Hlt & Hmax).
  - by apply elem_of_nil in Hin.
  - apply ordered_cons in Hord as [Hz Hord].
    assert (z.1 ≤ x.1).
    { apply elem_of_cons in Hin as [->|Hin]; [lia|].
      specialize (Hz _ Hin). lia. }
    rewrite filter_cons_True by lia.
    apply elem_of_cons in Hin as [->|Hin].
    + rewrite filter_none; [done|]. intros y Hy Hyb.
      specialize (Hz _ Hy).
      assert (y.1 ≤ z.1); [|lia]. apply Hmax; [by right|done].
    + rewrite last_cons, IH; [done..|].
      repeat split; [done..|]. intros y Hy ?. apply Hmax; [by right|done].
Qed.

(** ** [m[k] = v] on a map split around [k] *)

Lemma subscript_assign_app m1 m2 k v :
  (∀ x, x ∈ m1 → x.1 < k) →
  subscript_assign (m1 ++ m2) k v = m1 ++ subscript_assign m2 k v.
Proof.
  induction m1 as [|z m1 IH]; intros Hm1; simpl; [done|].
  assert (z.1 < k) by (apply Hm1; by left).
  rewrite !decide_False by lia. f_equal. apply IH.
  intros x Hx. apply Hm1. by right.
Qed.

Lemma subscript_assign_front m k v :
  (∀ y, head m = Some y → k < y.1) →
  subscript_assign m k v = (k, v) :: m.
Proof.
  destruct m as [|x m]; simpl; [done|]. intros Hh.
  rewrite decide_True; [done|]. by apply Hh.
Qed.

(** ** The two paths of [assign] on an ordered map *)

(** The node written at [keyEnd] by lines 54-56, when there is one. *)
Local Abbreviation boundary e m :=
  (match head (from e m) with
   | Some x => if decide (x.1 > e) then [(e%Z, x.2)] else []
   | None => []
   end).

Lemma filter_ext_in (P Q : @entry V → Prop)
    `{!∀ y, Decision (P y), !∀ y, Decision (Q y)} m :
  (∀ y, y ∈ m → P y ↔ Q y) → filter P m = filter Q m.
Proof.
  induction m as [|x m IH]; intros Hm; [done|].
  rewrite !filter_cons, IH by (intros y Hy; apply Hm; by right).
  apply decide_ext, Hm. by left.
Qed.

Lemma outside_split m b e :
  ordered m → b ≤ e →
  filter (λ y, ¬ (b ≤ y.1 < e)) m = below b m ++ from e m.
Proof.
  intros Hord Hbe. induction m as [|x m IH]; [done|].
  apply ordered_cons in Hord as [Hx Hord].
  destruct (decide (x.1 < b)) as [Hxb|Hxb].
  - rewrite !filter_cons_True by lia. rewrite filter_cons_False by lia.
    simpl. f_equal. by apply IH.
  - rewrite (filter_none (λ y, y.1 < b)); simpl.
    + apply filter_ext_in. intros y Hy.
      assert (x.1 ≤ y.1); [|lia].
      apply elem_of_cons in Hy as [->|Hy]; [lia|]. specialize (Hx _ Hy). lia.
    + intros y [->|Hy]%elem_of_cons; [lia|]. specialize (Hx _ Hy). lia.
Qed.

Lemma assign_early s b e v :
  ordered (m_map s) → b < e →
  prev_has_value (m_map s) (lower_bound (m_map s) b) v = true →
  assign s b e v =
    {| m_valBegin := m_valBegin s;
       m_map := below b (m_map s) ++ from e (m_map s) |}.
Proof.
  intros Hord Hbe Hp. unfold assign. rewrite decide_False by lia.
  cbv zeta. rewrite Hp. by rewrite erase_lower_bounds by (done || lia).
Qed.

Lemma assign_full s b e v :
  ordered (m_map s) → b < e →
  prev_has_value (m_map s) (lower_bound (m_map s) b) v = false →
  assign s b e v =
    {| m_valBegin := m_valBegin s;
       m_map := canonicalize (below b (m_map s) ++
                  (b, v) :: boundary e (m_map s) ++ from e (m_map s)) |}.
Proof.
  intros Hord Hbe Hp. unfold assign. rewrite decide_False by lia.
  cbv zeta. rewrite Hp. rewrite erase_lower_bounds by (done || lia).
  rewrite lower_bound_head. f_equal. f_equal.
  assert (∀ k, b ≤ k → ∀ y, y ∈ below b (m_map s) → y.1 < k) as Hbelow.
  { intros k Hk y [? _]%list_elem_of_filter. lia. }
  rewrite subscript_assign_app by (by apply Hbelow).
  rewrite (subscript_assign_front (from e (m_map s))).
  2:{ intros y [? _]%head_Some_elem_of%list_elem_of_filter. lia. }
  destruct (head (from e (m_map s))) as [x|] eqn:Hh; [|done].
  case_decide as Hxe; [|done].
  rewrite subscript_assign_app by (apply Hbelow; lia).
  f_equal. simpl. rewrite !decide_False by lia. f_equal.
  apply subscript_assign_front. intros y. rewrite Hh. intros [= <-]. lia.
Qed.

(** The node [itHigh] is neither erased by line 48 nor written by line 51:
    it is still in the map, with its value, when line 55 reads it. *)
Lemma itHigh_survives m b e v x :
  ordered m → b < e → lower_bound m e = Some x →
  x ∈ subscript_assign (erase m (lower_bound m b) (lower_bound m e)) b v.
Proof.
  intros Hord Hbe Hx. rewrite erase_lower_bounds by (done || lia).
  rewrite subscript_assign_app by (by intros y [? _]%list_elem_of_filter).
  rewrite lower_bound_head in Hx. apply head_Some_elem_of in Hx.
  rewrite subscript_assign_front.
  - rewrite elem_of_app. right. by right.
  - intros y [? _]%head_Some_elem_of%list_elem_of_filter. lia.
Qed.

Lemma early_ordered m b e :
  ordered m → b ≤ e → ordered (below b m ++ from e m).
Proof.
  intros Hord Hbe. apply ordered_app. split_and!.
  - intros x y [? _]%list_elem_of_filter [? _]%list_elem_of_filter. lia.
  - by apply ordered_filter.
  - by apply ordered_filter.
Qed.

Lemma boundary_elem m e y :
  ordered m → y ∈ boundary e m ++ from e m → e ≤ y.1.
Proof.
  intros Hord [Hy|Hy]%elem_of_app.
  - destruct (head (from e m)) as [x|]; [|by apply elem_of_nil in Hy].
    case_decide; [|by apply elem_of_nil in Hy].
    apply list_elem_of_singleton in Hy as ->. done.
  - by apply list_elem_of_filter in Hy as [? _].
Qed.

Lemma boundary_ordered m e :
  ordered m → ordered (boundary e m ++ from e m).
Proof.
  intros Hord. pose proof (ordered_filter (λ y, e ≤ y.1) m Hord) as Hf.
  destruct (from e m) as [|x r] eqn:Hr; simpl; [constructor|].
  case_decide; [|done].
  apply ordered_cons. split; [|done].
  apply ordered_cons in Hf as [Hx _].
  intros y [->|Hy]%elem_of_cons; simpl; [lia|]. specialize (Hx _ Hy). lia.
Qed.

Lemma full_ordered m b e v :
  ordered m → b < e →
  ordered (below b m ++ (b, v) :: boundary e m ++ from e m).
Proof.
  intros Hord Hbe. apply ordered_app. split_and!.
  - intros x y [? _]%list_elem_of_filter [->|Hy]%elem_of_cons; [done|].
    apply boundary_elem in Hy; [lia|done].
  - by apply ordered_filter.
  - apply ordered_cons. split; [|by apply boundary_ordered].
    intros y Hy%boundary_elem; [simpl; lia|done].
Qed.

(** [assign] keeps the map in key order. *)
Lemma assign_ordered s b e v :
  ordered (m_map s) → ordered (m_map (assign s b e v)).
Proof.
  intros Hord. destruct (decide (b >= e)) as [Hbe|Hbe].
  - unfold assign. by rewrite decide_True.
  - destruct (prev_has_value (m_map s) (lower_bound (m_map s) b) v) eqn:Hp.
    + rewrite assign_early by (done || lia). apply early_ordered; [done|lia].
    + rewrite assign_full by (done || lia).
      apply canonicalize_ordered, full_ordered; [done|lia].
Qed.

Lemma assign_all_ordered s calls :
  ordered (m_map s) → ordered (m_map (assign_all s calls)).
Proof.
  revert s. induction calls as [|c calls IH]; intros s Hord; [done|].
  apply IH. by apply assign_ordered.
Qed.

(** The path taken, read on the breakpoints themselves. *)
Lemma prev_has_value_greatest m b v x :
  ordered m → greatest_below m b x → x.2 = v →
  prev_has_value m (lower_bound m b) v = true.
Proof.
  intros Hord Hx Hv. apply prev_has_value_true; [done|].
  exists x. split; [by apply greatest_below_last|done].
Qed.

Lemma prev_has_value_false m b v :
  ordered m →
  (∀ y, y ∈ m → b ≤ y.1) ∨ (∃ x, greatest_below m b x ∧ x.2 ≠ v) →
  prev_has_value m (lower_bound m b) v = false.
Proof.
  intros Hord Hcase.
  destruct (prev_has_value m (lower_bound m b) v) eqn:Hp; [|done].
  apply prev_has_value_true in Hp as (x' & Hl & Hv); [|done].
  destruct Hcase as [Hall|(x & Hx & Hne)].
  - rewrite filter_none in Hl; [done|]. intros y Hy. specialize (Hall _ Hy). lia.
  - rewrite (greatest_below_last m b x) in Hl by done. congruence.
Qed.

(** The value read right of [keyBegin] and left of every later node. *)
Lemma value_at_full d m1 b v m2 k :
  (∀ y, y ∈ m1 → y.1 < b) → b ≤ k → (∀ y, y ∈ m2 → k < y.1) →
  value_at d (m1 ++ (b, v) :: m2) k = v.
Proof.
  intros Hm1 Hbk Hm2. rewrite value_at_app.
  - simpl. rewrite decide_False by lia. by apply value_at_above.
  - intros y Hy%Hm1. lia.
Qed.

Lemma value_at_early d m1 m2 b k x :
  (∀ y, y ∈ m1 → y.1 < b) → b ≤ k → (∀ y, y ∈ m2 → k < y.1) →
  last m1 = Some x →
  value_at d (m1 ++ m2) k = x.2.
Proof.
  intros Hm1 Hbk Hm2 Hl. rewrite value_at_app.
  - rewrite value_at_above by done. apply value_at_last; [|done].
    intros y Hy%Hm1. lia.
  - intros y Hy%Hm1. lia.
Qed.

(** Keys left of the assigned interval keep their value on both paths. *)
Lemma value_at_left d m1 m2 k :
  (∀ y, y ∈ m2 → k < y.1) → value_at d (m1 ++ m2) k = value_at d m1 k.
Proof.
  intros Hm2. revert d. induction m1 as [|x m1 IH]; intros d; simpl.
  - by apply value_at_above.
  - case_decide; [done|]. apply IH.
Qed.

Lemma value_at_below d m b k :
  ordered m → k < b → value_at d m k = value_at d (below b m) k.
Proof.
  intros Hord Hkb. revert d. induction m as [|x m IH]; intros d; [done|].
  apply ordered_cons in Hord as [Hx Hord]. rewrite filter_cons.
  case_decide as Hxb; simpl.
  - case_decide; [done|]. by apply IH.
  - rewrite decide_True by lia. rewrite filter_none; [done|].
    intros y Hy. specialize (Hx _ Hy). lia.
Qed.

Lemma assign_frame_left s b e v k :
  ordered (m_map s) → k < b →
  lookup (assign s b e v) k = lookup s k.
Proof.
  intros Hord Hkb. destruct (decide (b >= e)) as [Hbe|Hbe].
  { unfold assign. by rewrite decide_True. }
  rewrite !lookup_value_at, (value_at_below _ (m_map s) b) by done.
  destruct (prev_has_value (m_map s) (lower_bound (m_map s) b) v) eqn:Hp.
  - rewrite assign_early by (done || lia). simpl. apply value_at_left.
    intros y [? _]%list_elem_of_filter. lia.
  - rewrite assign_full by (done || lia). simpl.
    rewrite canonicalize_value_at by (apply full_ordered; [done|lia]).
    apply value_at_left. intros y [->|Hy]%elem_of_cons; [done|].
    apply boundary_elem in Hy; [lia|done].
Qed.

(** ** The claims that hold of every ordered map *)

(** C2. After [assign(begin, end, v)] with [begin < end], [lookup(k)]
    returns [v] for every key [k] with [begin <= k < end]. *)
Theorem assign_inside s b e v k :
  ordered (m_map s) → b < e → b ≤ k < e →
  lookup (assign s b e v) k = v.
Proof.
  intros Hord Hbe [Hbk Hke]. rewrite lookup_value_at.
  assert (∀ y, y ∈ below b (m_map s) → y.1 < b) as Hlow
    by (by intros y [? _]%list_elem_of_filter).
  destruct (prev_has_value (m_map s) (lower_bound (m_map s) b) v) eqn:Hp.
  - rewrite assign_early by done. simpl.
    apply prev_has_value_true in Hp as (x & Hl & <-); [|done].
    apply value_at_early with b; [done..| |done].
    intros y [? _]%list_elem_of_filter. lia.
  - rewrite assign_full by done. simpl.
    rewrite canonicalize_value_at by (by apply full_ordered).
    apply value_at_full; [done..|].
    intros y Hy%boundary_elem; [lia|done].
Qed.

(** C4, amended.  After any sequence of [assign] calls from a fresh map,
    a further call that reaches the canonicalization loop (its interval is
    not empty, and no breakpoint lies left of [begin] or the nearest one
    carries another value than the assigned one) leaves no two consecutive
    breakpoints of equal value.  Nothing is said of the first breakpoint
    and the default value. *)
Theorem assign_full_no_adjacent_equal d calls b e v :
  b < e →
  ((∀ y, y ∈ m_map (assign_all (new d) calls) → b ≤ y.1) ∨
   (∃ x, greatest_below (m_map (assign_all (new d) calls)) b x ∧ x.2 ≠ v)) →
  no_adjacent_equal (m_map (assign (assign_all (new d) calls) b e v)).
Proof.
  intros Hbe Hcase.
  assert (ordered (m_map (assign_all (new d) calls))) as Hord
    by apply assign_all_ordered, ordered_nil.
  rewrite assign_full by (done || by apply prev_has_value_false).
  apply canonicalize_no_adjacent_equal.
Qed.

(** C5. [lookup(k)] returns the value of the stored breakpoint of greatest
    key at most [k], and the default value when no stored breakpoint has a
    key at most [k], which includes the empty sequence.  [lookup] is a
    function of the state and returns no state. *)
Theorem lookup_greatest_breakpoint s k :
  ordered (m_map s) →
  (∀ x, greatest_upto (m_map s) k x → lookup s k = x.2) ∧
  ((∀ y, y ∈ m_map s → k < y.1) → lookup s k = m_valBegin s) ∧
  (m_map s = [] → lookup s k = m_valBegin s).
Proof.
  intros Hord. rewrite lookup_value_at. split_and!.
  - intros x Hx. by apply value_at_greatest.
  - apply value_at_above.
  - by intros ->.
Qed.

(** C7. With [begin >= end], [assign(begin, end, v)] returns normally and
    leaves the map as it was, so every [lookup] is unchanged. *)
Theorem assign_empty_interval s b e v :
  b >= e →
  assign s b e v = s ∧ ∀ k, lookup (assign s b e v) k = lookup s k.
Proof.
  intros Hbe. unfold assign. by rewrite decide_True.
Qed.

(** C9. When the greatest breakpoint left of [keyBegin] exists and carries
    [val], [assign(keyBegin, keyEnd, val)] with [keyBegin < keyEnd] keeps
    exactly the breakpoints of key outside [[keyBegin, keyEnd)] and adds
    none, so [val] is read from [keyBegin] up to the first surviving
    breakpoint of key at least [keyEnd]. *)
Theorem assign_extends_previous s b e v x :
  ordered (m_map s) → b < e → greatest_below (m_map s) b x → x.2 = v →
  m_valBegin (assign s b e v) = m_valBegin s ∧
  m_map (assign s b e v) = filter (λ y, ¬ (b ≤ y.1 < e)) (m_map s) ∧
  ∀ k, b ≤ k → (∀ y, y ∈ m_map s → e ≤ y.1 → k < y.1) →
       lookup (assign s b e v) k = v.
Proof.
  intros Hord Hbe Hx Hv.
  rewrite assign_early by (done || by apply prev_has_value_greatest with x).
  simpl. split_and!; [done|by rewrite outside_split by (done || lia)|].
  intros k Hbk Hk. rewrite lookup_value_at. simpl. rewrite <-Hv.
  apply value_at_early with b; [|done| |by apply greatest_below_last].
  - by intros y [? _]%list_elem_of_filter.
  - intros y [? ?]%list_elem_of_filter. by apply Hk.
Qed.

(** C10. When no breakpoint has a key at least [keyEnd], and no breakpoint
    lies left of [keyBegin] or the nearest one carries another value than
    [val], then after [assign(keyBegin, keyEnd, val)] with
    [keyBegin < keyEnd] every key [k >= keyBegin] reads [val], the keys
    [k >= keyEnd] included. *)
Theorem assign_without_right_neighbour s b e v k :
  ordered (m_map s) → b < e →
  (∀ y, y ∈ m_map s → y.1 < e) →
  ((∀ y, y ∈ m_map s → b ≤ y.1) ∨
   (∃ x, greatest_below (m_map s) b x ∧ x.2 ≠ v)) →
  b ≤ k →
  lookup (assign s b e v) k = v.
Proof.
  intros Hord Hbe Hright Hcase Hbk. rewrite lookup_value_at.
  rewrite assign_full by (done || by apply prev_has_value_false).
  simpl. rewrite canonicalize_value_at by (by apply full_ordered).
  rewrite (filter_none (λ y, e ≤ y.1)).
  - simpl. apply value_at_full; [|done|by intros y ?%elem_of_nil].
    by intros y [? _]%list_elem_of_filter.
  - intros y Hy. specialize (Hright _ Hy). lia.
Qed.

(** ** Further properties of [assign] and [operator[]] *)

Lemma ordered_split m e : ordered m → m = below e m ++ from e m.
Proof.
  induction m as [|x m IH]; [done|].
  intros [Hx Hord]%ordered_cons.
  destruct (decide (x.1 < e)) as [Hxe|Hxe].
  - rewrite filter_cons_True by done. rewrite filter_cons_False by lia.
    simpl. f_equal. by apply IH.
  - rewrite (filter_none (λ y, y.1 < e)), (filter_all (λ y, e ≤ y.1)); [done|..].
    + intros y [->|Hy]%elem_of_cons; [lia|]. specialize (Hx _ Hy). lia.
    + intros y [->|Hy]%elem_of_cons; [lia|]. specialize (Hx _ Hy). lia.
Qed.

Lemma value_at_from d m e k :
  ordered m → e ≤ k →
  value_at d m k = value_at (value_at d (below e m) k) (from e m) k.
Proof.
  intros Hord Hek. rewrite (ordered_split m e Hord) at 1.
  apply value_at_app. intros y [? _]%list_elem_of_filter. lia.
Qed.

(** The first node of key at least [e], as [lower_bound] finds it. *)
Lemma least_from_head m e x :
  ordered m → (least_from m e x ↔ head (from e m) = Some x).
Proof.
  intros Hord. pose proof (ordered_filter (λ y, e ≤ y.1) m Hord) as Hf.
  split.
  - intros (Hin & Hex & Hmin).
    assert (x ∈ from e m) as Hxf by (by apply list_elem_of_filter).
    destruct (from e m) as [|z r] eqn:Hr; [by apply elem_of_nil in Hxf|].
    apply ordered_cons in Hf as [Hz _].
    assert (z ∈ from e m) as [Hze Hzm]%list_elem_of_filter
      by (rewrite Hr; by left).
    specialize (Hmin _ Hzm Hze).
    apply elem_of_cons in Hxf as [->|Hxr]; [done|].
    specialize (Hz _ Hxr). lia.
  - intros Hh. destruct (from e m) as [|z r] eqn:Hr; [done|].
    injection Hh as ->.
    assert (x ∈ from e m) as [Hxe Hxm]%list_elem_of_filter
      by (rewrite Hr; by left).
    split_and!; [done..|]. intros y Hy Hey.
    assert (y ∈ from e m) as Hyf by (by apply list_elem_of_filter).
    rewrite Hr in Hyf. apply ordered_cons in Hf as [Hz _].
    apply elem_of_cons in Hyf as [->|Hyr]; [lia|]. specialize (Hz _ Hyr). lia.
Qed.

Lemma canonicalize_elem m y : y ∈ canonicalize m → y ∈ m.
Proof. destruct m; [done|]. apply canonicalize_from_elem. Qed.

Lemma canonicalize_from_length x m :
  (length (canonicalize_from x m) ≤ S (length m))%nat.
Proof.
  revert x. induction m as [|z m IH]; intros x; simpl; [done|].
  case_decide; simpl.
  - specialize (IH x). lia.
  - specialize (IH z). lia.
Qed.

Lemma canonicalize_length m : (length (canonicalize m) ≤ length m)%nat.
Proof. destruct m; [done|]. apply canonicalize_from_length. Qed.

Lemma canonicalize_from_fixpoint x m :
  changes_from x.2 m → canonicalize_from x m = x :: m.
Proof.
  revert x. induction m as [|z m IH]; intros x; simpl; [done|].
  intros [Hne Hm]. rewrite decide_False by done. f_equal. by apply IH.
Qed.

Lemma assign_m_valBegin s b e v :
  m_valBegin (assign s b e v) = m_valBegin s.
Proof. unfold assign. by repeat case_match. Qed.

(** X1. Every map reached from a freshly constructed one by [assign] calls
    is key-ordered and still has the default value given to the
    constructor. *)
Theorem reachable_ordered_same_default d calls :
  ordered (m_map (assign_all (new d) calls)) ∧
  m_valBegin (assign_all (new d) calls) = d.
Proof.
  split; [apply assign_all_ordered, ordered_nil|].
  change d with (m_valBegin (new d)) at 2. generalize (new d).
  induction calls as [|c calls IH]; intros s; [done|].
  simpl. by rewrite IH, assign_m_valBegin.
Qed.

(** X2. [assign(begin, end, v)] does not change what is read at a key
    smaller than [begin], on either path and for an empty interval too. *)
Theorem assign_keeps_left s b e v k :
  ordered (m_map s) → k < b →
  lookup (assign s b e v) k = lookup s k.
Proof. apply assign_frame_left. Qed.

(** X3. [assign(begin, end, v)] with [begin < end] does not change what is
    read at a key [k] when some stored breakpoint has its key between [end]
    and [k], both included: the reads change at most up to the first
    breakpoint at or after [end]. *)
Theorem assign_keeps_right s b e v k y :
  ordered (m_map s) → b < e → y ∈ m_map s → e ≤ y.1 ≤ k →
  lookup (assign s b e v) k = lookup s k.
Proof.
  intros Hord Hbe Hy [Hey Hyk]. rewrite !lookup_value_at.
  assert (∀ z, z ∈ below b (m_map s) → z.1 ≤ k) as Hlow
    by (intros z [? _]%list_elem_of_filter; lia).
  pose proof (ordered_filter (λ z, e ≤ z.1) _ Hord) as Hf.
  assert (y ∈ from e (m_map s)) as Hyf by (by apply list_elem_of_filter).
  rewrite (value_at_from _ (m_map s) e k) by (done || lia).
  generalize (value_at (m_valBegin s) (below e (m_map s)) k). intros d'.
  destruct (prev_has_value (m_map s) (lower_bound (m_map s) b) v) eqn:Hp.
  - rewrite assign_early by done. simpl.
    destruct (from e (m_map s)) as [|x r] eqn:Hr;
      [by apply elem_of_nil in Hyf|].
    assert (x.1 ≤ k).
    { apply ordered_cons in Hf as [Hx _].
      apply elem_of_cons in Hyf as [->|Hyr]; [lia|]. specialize (Hx _ Hyr). lia. }
    rewrite value_at_app by done. simpl. by rewrite !decide_False by lia.
  - rewrite assign_full by done. simpl.
    rewrite canonicalize_value_at by (by apply full_ordered).
    destruct (from e (m_map s)) as [|x r] eqn:Hr;
      [by apply elem_of_nil in Hyf|].
    assert (e ≤ x.1 ≤ k) as [Hex Hxk].
    { assert (x ∈ from e (m_map s)) as [? _]%list_elem_of_filter
        by (rewrite Hr; by left).
      apply ordered_cons in Hf as [Hx _].
      apply elem_of_cons in Hyf as [->|Hyr]; [lia|]. specialize (Hx _ Hyr). lia. }
    rewrite value_at_app by done. simpl.
    rewrite decide_False by lia.
    case_decide; simpl; by rewrite !decide_False by lia.
Qed.

(** X4. On the path that writes [keyBegin] (no breakpoint left of [begin],
    or the nearest one carries another value than [v]), the keys from [end]
    up to the first breakpoint [x] at or after [end] read the value of [x]
    after [assign(begin, end, v)]: line 55 copies [itHigh->second]. *)
Theorem assign_gap_reads_next s b e v x k :
  ordered (m_map s) → b < e →
  ((∀ y, y ∈ m_map s → b ≤ y.1) ∨
   (∃ p, greatest_below (m_map s) b p ∧ p.2 ≠ v)) →
  least_from (m_map s) e x → e ≤ k < x.1 →
  lookup (assign s b e v) k = x.2.
Proof.
  intros Hord Hbe Hcase Hx [Hek Hkx]. rewrite lookup_value_at.
  rewrite assign_full by (done || by apply prev_has_value_false).
  simpl. rewrite canonicalize_value_at by (by apply full_ordered).
  apply least_from_head in Hx; [|done].
  destruct (from e (m_map s)) as [|z r] eqn:Hr; [done|].
  injection Hx as ->. simpl. rewrite decide_True by lia.
  rewrite value_at_app by (intros y [? _]%list_elem_of_filter; lia).
  simpl. rewrite !decide_False by lia. by rewrite decide_True by lia.
Qed.

(** X5. After any sequence of [assign] calls on a fresh map, a key smaller
    than the [begin] of every call still reads the default value. *)
Theorem lookup_left_of_all_assigns d calls k :
  (∀ c, c ∈ calls → k < c.1.1) →
  lookup (assign_all (new d) calls) k = d.
Proof.
  intros Hcalls. change d with (lookup (new d) k) at 2.
  assert (ordered (m_map (new d))) as Hord by apply ordered_nil.
  revert Hord. generalize (new d). revert Hcalls.
  induction calls as [|c calls IH]; intros Hcalls s Hord; [done|].
  simpl. rewrite IH.
  - apply assign_frame_left; [done|]. apply Hcalls. by left.
  - intros c' Hc'. apply Hcalls. by right.
  - by apply assign_ordered.
Qed.

(** X6. Where the breakpoints of the result come from: after
    [assign(begin, end, v)] with [begin < end] a stored breakpoint is an old
    one of key outside [[begin, end)], unchanged, or it is [(begin, v)], or
    it has key [end] and the value of an old breakpoint of greater key.  No
    other key appears and no key strictly between [begin] and [end] is
    left. *)
Theorem assign_breakpoints_origin s b e v y :
  ordered (m_map s) → b < e → y ∈ m_map (assign s b e v) →
  (y ∈ m_map s ∧ (y.1 < b ∨ e ≤ y.1)) ∨
  y = (b, v) ∨
  (y.1 = e ∧ ∃ x, x ∈ m_map s ∧ e < x.1 ∧ y.2 = x.2).
Proof.
  intros Hord Hbe.
  destruct (prev_has_value (m_map s) (lower_bound (m_map s) b) v) eqn:Hp.
  - rewrite assign_early by done. simpl.
    intros [[? ?]%list_elem_of_filter|[? ?]%list_elem_of_filter]%elem_of_app;
      left; (split; [done|lia]).
  - rewrite assign_full by done. simpl. intros Hy%canonicalize_elem.
    apply elem_of_app in Hy as [[? ?]%list_elem_of_filter|Hy];
      [left; split; [done|lia]|].
    apply elem_of_cons in Hy as [->|Hy]; [by right; left|].
    apply elem_of_app in Hy as [Hy|[? ?]%list_elem_of_filter];
      [|left; split; [done|lia]].
    destruct (head (from e (m_map s))) as [x|] eqn:Hh;
      [|by apply elem_of_nil in Hy].
    case_decide; [|by apply elem_of_nil in Hy].
    apply list_elem_of_singleton in Hy as ->. right; right.
    split; [done|]. exists x. split_and!; [|lia|done].
    by apply head_Some_elem_of, list_elem_of_filter in Hh as [_ ?].
Qed.

Lemma outside_length m b e :
  b ≤ e → (length (below b m) + length (from e m) ≤ length m)%nat.
Proof.
  intros Hbe. induction m as [|x m IH]; [done|].
  rewrite !filter_cons. repeat case_decide; simpl; lia.
Qed.

(** X7. One [assign] call adds at most two breakpoints to the map. *)
Theorem assign_length s b e v :
  ordered (m_map s) →
  (length (m_map (assign s b e v)) ≤ length (m_map s) + 2)%nat.
Proof.
  intros Hord. destruct (decide (b >= e)) as [Hbe|Hbe].
  { unfold assign. rewrite decide_True by done. lia. }
  pose proof (outside_length (m_map s) b e ltac:(lia)) as Hlen.
  destruct (prev_has_value (m_map s) (lower_bound (m_map s) b) v) eqn:Hp.
  - rewrite assign_early by (done || lia). cbn [m_map]. rewrite length_app. lia.
  - rewrite assign_full by (done || lia). cbn [m_map].
    etrans; [apply canonicalize_length|].
    rewrite length_app, length_cons, length_app.
    destruct (head (from e (m_map s))); [case_decide|]; cbn [length];
      unfold entry in *; lia.
Qed.

(** X8. The loop of lines 59-69 changes nothing in a map where no two
    consecutive breakpoints carry equal values. *)
Theorem canonicalize_fixpoint m :
  no_adjacent_equal m → canonicalize m = m.
Proof. destruct m as [|x m]; [done|]. apply canonicalize_from_fixpoint. Qed.

Lemma assign_early_twice s b e v :
  ordered (m_map s) → b < e →
  prev_has_value (m_map s) (lower_bound (m_map s) b) v = true →
  assign (assign s b e v) b e v = assign s b e v.
Proof.
  intros Hord Hbe Hp. rewrite (assign_early s) by done.
  apply prev_has_value_true in Hp as (x & Hl & Hv); [|done].
  assert (below b (below b (m_map s) ++ from e (m_map s)) = below b (m_map s))
    as Hb.
  { rewrite filter_app.
    rewrite (filter_none (λ y, y.1 < b) (from e (m_map s))), app_nil_r.
    - apply filter_all. by intros y [? _]%list_elem_of_filter.
    - intros y [? _]%list_elem_of_filter. lia. }
  assert (from e (below b (m_map s) ++ from e (m_map s)) = from e (m_map s))
    as He.
  { rewrite filter_app.
    rewrite (filter_none (λ y, e ≤ y.1) (below b (m_map s))); simpl.
    - apply filter_all. by intros y [? _]%list_elem_of_filter.
    - intros y [? _]%list_elem_of_filter. lia. }
  rewrite assign_early; simpl.
  - by rewrite Hb, He.
  - apply early_ordered; [done|lia].
  - done.
  - apply prev_has_value_true; [apply early_ordered; [done|lia]|].
    exists x. by rewrite Hb.
Qed.

(** X9. On the early-return path (the greatest breakpoint left of [begin]
    carries [v]) a second identical [assign(begin, end, v)] changes
    nothing. *)
Theorem assign_extends_previous_twice s b e v x :
  ordered (m_map s) → b < e → greatest_below (m_map s) b x → x.2 = v →
  assign (assign s b e v) b e v = assign s b e v.
Proof.
  intros Hord Hbe Hx Hv. apply assign_early_twice; [done..|].
  by apply prev_has_value_greatest with x.
Qed.

(** X10. [operator[]] is constant between breakpoints: two keys
    [k1 <= k2] with no stored breakpoint of key in [(k1, k2]] read the same
    value. *)
Theorem lookup_constant_between s k1 k2 :
  k1 ≤ k2 → (∀ y, y ∈ m_map s → ¬ (k1 < y.1 ≤ k2)) →
  lookup s k1 = lookup s k2.
Proof.
  intros Hk Hnone. rewrite !lookup_value_at.
  generalize (m_valBegin s). induction (m_map s) as [|x m IH]; intros d; [done|].
  simpl. assert (¬ (k1 < x.1 ≤ k2)) by (apply Hnone; by left).
  repeat case_decide; try lia; [done|].
  apply IH. intros y Hy. apply Hnone. by right.
Qed.

(** ** The loop of lines 59-69 on a map in two parts *)

Lemma canonicalize_from_app x m1 m2 :
  (∀ y, head m2 = Some y → (default x (last m1)).2 ≠ y.2) →
  canonicalize_from x (m1 ++ m2) = canonicalize_from x m1 ++ canonicalize m2.
Proof.
  revert x. induction m1 as [|z m1 IH]; intros x Hne.
  - destruct m2 as [|y r]; simpl; [done|].
    rewrite decide_False; [done|]. by apply Hne.
  - assert (default x (last (z :: m1)) = default z (last m1)) as Hlast
      by (rewrite last_cons; by destruct (last m1)).
    rewrite Hlast in Hne. simpl. case_decide as Heq.
    + apply IH. intros y Hy. destruct (last m1); simpl in *; [by apply Hne|].
      rewrite Heq. by apply Hne.
    + simpl. f_equal. by apply IH.
Qed.

Lemma canonicalize_app m1 m2 :
  (∀ x y, last m1 = Some x → head m2 = Some y → x.2 ≠ y.2) →
  canonicalize (m1 ++ m2) = canonicalize m1 ++ canonicalize m2.
Proof.
  destruct m1 as [|z m1]; [done|]. intros Hne. simpl.
  apply canonicalize_from_app. intros y Hy.
  destruct (last m1) as [w|] eqn:Hw; simpl.
  - apply (Hne w y); [|done]. by rewrite last_cons, Hw.
  - apply (Hne z y); [|done]. by rewrite last_cons, Hw.
Qed.

Lemma canonicalize_head m : head (canonicalize m) = head m.
Proof.
  destruct m as [|x m]; [done|]. simpl.
  by destruct (canonicalize_from_changes x m) as (r & -> & _).
Qed.

Lemma canonicalize_from_last x m :
  ∃ w, last (canonicalize_from x m) = Some w ∧ w.2 = (default x (last m)).2.
Proof.
  revert x. induction m as [|z m IH]; intros x; simpl.
  - by exists x.
  - assert (default x (last (z :: m)) = default z (last m)) as ->
      by (rewrite last_cons; by destruct (last m)).
    case_decide as Heq.
    + destruct (IH x) as (w & Hw & Hv). exists w. split; [done|].
      rewrite Hv. destruct (last m); simpl; [done|]. done.
    + destruct (IH z) as (w & Hw & Hv). exists w. split; [|done].
      by rewrite last_cons, Hw.
Qed.

Lemma canonicalize_last m w :
  last (canonicalize m) = Some w → ∃ p, last m = Some p ∧ p.2 = w.2.
Proof.
  destruct m as [|x m]; [done|]. simpl.
  destruct (canonicalize_from_last x m) as (w' & -> & Hv). intros [= <-].
  rewrite last_cons. destruct (last m) as [p|]; simpl in *; eauto.
Qed.

Lemma canonicalize_idempotent m :
  canonicalize (canonicalize m) = canonicalize m.
Proof.
  destruct m as [|x m]; [done|]. simpl.
  destruct (canonicalize_from_changes x m) as (r & -> & Hr). simpl.
  by apply canonicalize_from_fixpoint.
Qed.

(** The breakpoints written by lines 48-56, before the loop. *)
Lemma full_parts m b e v :
  ordered m →
  prev_has_value m (lower_bound m b) v = false →
  canonicalize (below b m ++ (b, v) :: boundary e m ++ from e m) =
  canonicalize (below b m) ++
    canonicalize_from (b, v) (boundary e m ++ from e m).
Proof.
  intros Hord Hp. apply canonicalize_app. intros x y Hx [= <-] Hv.
  assert (prev_has_value m (lower_bound m b) v = true) as Ht; [|congruence].
  apply prev_has_value_true; [done|]. by exists x.
Qed.

(** The node that follows [(keyBegin, val)] before the loop has key
    [keyEnd] and the value of the first old node at or after [keyEnd]. *)
Lemma boundary_head m e y :
  head (boundary e m ++ from e m) = Some y →
  y.1 = e ∧ ∃ x, head (from e m) = Some x ∧ y.2 = x.2.
Proof.
  destruct (from e m) as [|x r] eqn:Hr; [done|]. simpl.
  assert (x ∈ from e m) as [Hex _]%list_elem_of_filter by (rewrite Hr; by left).
  case_decide; simpl; intros [= <-]; (split; [simpl; lia|by exists x]).
Qed.

Lemma full_twice m b e v :
  ordered m → b < e →
  prev_has_value m (lower_bound m b) v = false →
  (∀ x, head (from e m) = Some x → x.2 ≠ v) →
  let m1 := canonicalize (below b m ++ (b, v) :: boundary e m ++ from e m) in
  prev_has_value m1 (lower_bound m1 b) v = false ∧
  canonicalize (below b m1 ++ (b, v) :: boundary e m1 ++ from e m1) = m1.
Proof.
  intros Hord Hbe Hp Hnext m1.
  assert (ordered m1) as Hord1 by (by apply canonicalize_ordered, full_ordered).
  assert (canonicalize m1 = m1) as Hidem by apply canonicalize_idempotent.
  pose proof (boundary_head m e) as Hhead.
  pose proof (λ y, boundary_elem m e y Hord) as Hkeys.
  pose proof (full_parts m b e v Hord Hp) as Hparts. fold m1 in Hparts.
  set (T := boundary e m ++ from e m) in *.
  assert (m1 = canonicalize (below b m) ++ (b, v) :: canonicalize T) as Hm1.
  { rewrite Hparts. f_equal.
    apply (canonicalize_from_app (b, v) []). simpl.
    intros y (_ & x & Hx & ->)%Hhead Hv. by apply (Hnext x). }
  clearbody T m1.
  assert (∀ y, y ∈ canonicalize (below b m) → y.1 < b) as Hlow
    by (by intros y [? _]%canonicalize_elem%list_elem_of_filter).
  assert (∀ y, y ∈ canonicalize T → e ≤ y.1) as Hhigh
    by (intros y Hy%canonicalize_elem; by apply Hkeys).
  assert (below b m1 = canonicalize (below b m)) as Hb.
  { rewrite Hm1, filter_app, filter_cons_False by (simpl; lia).
    rewrite (filter_none (λ y, y.1 < b) (canonicalize T)).
    - rewrite app_nil_r. by apply filter_all.
    - intros y Hy%Hhigh. lia. }
  assert (from e m1 = canonicalize T) as He.
  { rewrite Hm1, filter_app, filter_cons_False by (simpl; lia).
    rewrite (filter_none (λ y, e ≤ y.1) (canonicalize (below b m))).
    - simpl. by apply filter_all.
    - intros y Hy%Hlow. lia. }
  split.
  - destruct (prev_has_value m1 (lower_bound m1 b) v) eqn:Hp1; [|done].
    apply prev_has_value_true in Hp1 as (w & Hw & Hv); [|done].
    rewrite Hb in Hw. apply canonicalize_last in Hw as (p & Hl & Hpw).
    assert (prev_has_value m (lower_bound m b) v = true) as Ht; [|congruence].
    apply prev_has_value_true; [done|]. exists p. split; [done|congruence].
  - rewrite Hb, He, canonicalize_head. unfold entry in *.
    destruct (head T) as [y|] eqn:Hh.
    + destruct (Hhead y eq_refl) as [Hy _].
      rewrite decide_False by lia. simpl. by rewrite <-Hm1.
    + simpl. by rewrite <-Hm1.
Qed.

Lemma changes_from_app d m1 m2 :
  changes_from d (m1 ++ m2) ↔
    changes_from d m1 ∧ changes_from (default d (snd <$> last m1)) m2.
Proof.
  revert d. induction m1 as [|z m1 IH]; intros d; simpl; [tauto|].
  rewrite IH, last_cons. destruct (last m1); simpl; tauto.
Qed.

Lemma changes_from_head d m :
  changes_from d m ↔
    (∀ x, head m = Some x → d ≠ x.2) ∧ no_adjacent_equal m.
Proof.
  destruct m as [|x m]; simpl; [by split|]. split.
  - intros [? ?]. split; [by intros ? [= <-]|done].
  - intros [Hh ?]. split; [by apply Hh|done].
Qed.

(** X11. On the path that writes [keyBegin], the breakpoint
    [(keyBegin, val)] is still stored when [assign] returns: the loop of
    lines 59-69 never erases it. *)
Theorem assign_stores_keyBegin s b e v :
  ordered (m_map s) → b < e →
  ((∀ y, y ∈ m_map s → b ≤ y.1) ∨
   (∃ p, greatest_below (m_map s) b p ∧ p.2 ≠ v)) →
  (b, v) ∈ m_map (assign s b e v).
Proof.
  intros Hord Hbe Hcase.
  pose proof (prev_has_value_false _ _ _ Hord Hcase) as Hp.
  rewrite assign_full by done. simpl. rewrite full_parts by done.
  apply elem_of_app. right.
  destruct (canonicalize_from_changes (b, v)
              (boundary e (m_map s) ++ from e (m_map s))) as (r & -> & _).
  by left.
Qed.

(** X12. Where a repeated call changes nothing: when the first stored
    breakpoint at or after [end], if there is one, carries a value other
    than [v], calling [assign(begin, end, v)] twice gives the same map as
    calling it once. *)
Theorem assign_twice_when_next_differs s b e v :
  ordered (m_map s) →
  (∀ x, least_from (m_map s) e x → x.2 ≠ v) →
  assign (assign s b e v) b e v = assign s b e v.
Proof.
  intros Hord Hnext. destruct (decide (b >= e)) as [Hbe|Hbe].
  { unfold assign. by rewrite !decide_True. }
  destruct (prev_has_value (m_map s) (lower_bound (m_map s) b) v) eqn:Hp.
  { apply assign_early_twice; [done|lia|done]. }
  assert (∀ x, head (from e (m_map s)) = Some x → x.2 ≠ v) as Hnext'.
  { intros x Hx. apply Hnext. by apply least_from_head. }
  destruct (full_twice (m_map s) b e v Hord ltac:(lia) Hp Hnext') as [Hp1 Heq].
  rewrite (assign_full s) by (done || lia).
  rewrite assign_full; simpl.
  - by rewrite Heq.
  - apply canonicalize_ordered, full_ordered; [done|lia].
  - lia.
  - done.
Qed.

(** X13. When the first stored breakpoint, if any, differs from the default
    value, and the value in force just left of [begin] (that of the nearest
    breakpoint left of [begin], the default value when there is none)
    differs from [v], then [assign(begin, end, v)] with [begin < end]
    returns a canonical map: the first breakpoint differs from the default
    value and no two consecutive breakpoints carry equal values. *)
Theorem assign_canonical s b e v :
  ordered (m_map s) → b < e →
  (∀ x, head (m_map s) = Some x → x.2 ≠ m_valBegin s) →
  (((∀ y, y ∈ m_map s → b ≤ y.1) ∧ v ≠ m_valBegin s) ∨
   (∃ p, greatest_below (m_map s) b p ∧ p.2 ≠ v)) →
  canonical (assign s b e v).
Proof.
  intros Hord Hbe Hfirst Hcase.
  assert (prev_has_value (m_map s) (lower_bound (m_map s) b) v = false) as Hp.
  { apply prev_has_value_false; [done|]. destruct Hcase as [[? _]|?]; eauto. }
  rewrite assign_full by done. unfold canonical. simpl.
  apply changes_from_head. split; [|apply canonicalize_no_adjacent_equal].
  intros x. rewrite canonicalize_head.
  destruct (below b (m_map s)) as [|z l] eqn:Hl; simpl.
  - intros [= <-]. simpl. destruct Hcase as [[_ ?]|(p & Hx & _)]; [done|].
    apply greatest_below_last in Hx; [|done]. by rewrite Hl in Hx.
  - intros [= <-]. apply not_eq_sym, Hfirst.
    rewrite (ordered_split (m_map s) b Hord), Hl. done.
Qed.

(** X14. On the early-return path (the greatest breakpoint left of [begin]
    carries [v]), a canonical map stays canonical when the first stored
    breakpoint at or after [end], if there is one, carries a value other
    than [v]. *)
Theorem assign_extends_previous_canonical s b e v x :
  ordered (m_map s) → b < e → canonical s →
  greatest_below (m_map s) b x → x.2 = v →
  (∀ y, least_from (m_map s) e y → y.2 ≠ v) →
  canonical (assign s b e v).
Proof.
  intros Hord Hbe Hcan Hx Hv Hnext.
  pose proof (greatest_below_last _ _ _ Hord Hx) as Hl.
  rewrite assign_early by (done || by apply prev_has_value_greatest with x).
  unfold canonical in *. simpl. apply changes_from_app. split.
  - rewrite (ordered_split (m_map s) b Hord) in Hcan.
    by apply changes_from_app in Hcan as [? _].
  - rewrite Hl. simpl. rewrite Hv.
    assert (∀ y, head (from e (m_map s)) = Some y → y.2 ≠ v) as Hnext'.
    { intros y Hy. apply Hnext. by apply least_from_head. }
    rewrite (ordered_split (m_map s) e Hord) in Hcan.
    apply changes_from_app in Hcan as [_ Hcan].
    destruct (from e (m_map s)) as [|y r]; [done|].
    destruct Hcan as [_ Hr]. split; [|done].
    apply not_eq_sym, Hnext'. done.
Qed.

End facts.

(** ** The test harness and other runs of the code *)

Local Open Scope char_scope.

Example imap_57_breakpoints : m_map imap_57 = [(5, "B"); (7, "C")].
Proof. reflexivity. Qed.

Example imap_110_breakpoints : m_map imap_110 = [(1, "B"); (10, "C")].
Proof. reflexivity. Qed.

(** C1. On the fresh map of the test harness, [assign(1, 3, 'B')] changes
    the value read at key 3, which is outside [[1, 3)]: it was ['A'] and
    becomes ['B'] (the assertion of line 98 expects ['A']). *)
Theorem assign_changes_value_at_keyEnd :
  lookup imap0 3 = "A" ∧ lookup (assign imap0 1 3 "B") 3 = "B".
Proof. split; reflexivity. Qed.

(** C3. The run of [IntervalMapTest]: after [assign(1,3,'B')] and
    [assign(5,7,'C')] the map holds the breakpoints 1 and 5 only, and the
    keys 0 to 7 read A B B B B C C C; the keys 3, 4 and 7 do not read
    ['A']. *)
Theorem test_harness_lookups :
  m_map imap_test = [(1, "B"); (5, "C")] ∧
  lookup imap_test <$> [0; 1; 2; 3; 4; 5; 6; 7]
    = ["A"; "B"; "B"; "B"; "B"; "C"; "C"; "C"].
Proof. split; reflexivity. Qed.

(** C4, as stated, fails: on a fresh map of default ['A'],
    [assign(1, 2, 'A')] stores a first breakpoint that carries the default
    value. *)
Lemma canonical_fails_on_default :
  m_map (assign_all imap0 [(1, 2, "A")]) = [(1, "A")] ∧
  ¬ canonical (assign_all imap0 [(1, 2, "A")]).
Proof. split; [reflexivity|]. vm_compute. intros [Hne _]. by apply Hne. Qed.

(** The return of line 43 skips the loop of lines 59-69: here it leaves the
    breakpoints 1 and 5 next to each other with the same value. *)
Example early_return_leaves_equal_neighbours :
  m_map (assign_all imap0
           [(1, 2, "B"); (3, 4, "C"); (5, 6, "B"); (2, 4, "B")])
    = [(1, "B"); (5, "B")].
Proof. reflexivity. Qed.

(** C6. Two runs of the right boundary (lines 54-56).  On the fresh map,
    [assign(1, 3, 'B')] stores no breakpoint at 3 although 3 read ['A'].
    On the map with breakpoints 1:'B' and 10:'C', [assign(3, 5, 'D')]
    stores at 5 the value ['C'] of the next breakpoint although 5 read
    ['B']. *)
Theorem assign_right_boundary :
  (lookup imap0 3 = "A" ∧ m_map (assign imap0 1 3 "B") = [(1, "B")]) ∧
  (lookup imap_110 5 = "B" ∧
   m_map (assign imap_110 3 5 "D") = [(1, "B"); (3, "D"); (5, "C")]).
Proof. repeat split; reflexivity. Qed.

(** C8. On the map with breakpoints 5:'B' and 7:'C', a first
    [assign(1, 3, 'B')] gives the breakpoints 1:'B', 7:'C' and a second,
    identical call gives 1:'B', 3:'C'. *)
Theorem assign_twice_differs :
  m_map (assign imap_57 1 3 "B") = [(1, "B"); (7, "C")] ∧
  m_map (assign (assign imap_57 1 3 "B") 1 3 "B") = [(1, "B"); (3, "C")] ∧
  assign (assign imap_57 1 3 "B") 1 3 "B" ≠ assign imap_57 1 3 "B".
Proof. split_and!; [reflexivity..|]. intros Heq. by vm_compute in Heq. Qed.

(** ** The general theorems at concrete maps *)

Lemma assign_inside_witness :
  ordered (m_map imap_57) ∧ 6 < 9 ∧ 6 ≤ 8 < 9 ∧
  lookup (assign imap_57 6 9 "D") 8 = "D".
Proof.
  assert (ordered (m_map imap_57)) as Hord by ordered_by_computation.
  split_and!; [done|lia..|].
  apply (assign_inside imap_57 6 9 "D" 8); [done|lia|lia].
Defined.

Lemma assign_full_no_adjacent_equal_witness :
  1 < 3 ∧
  (∀ y, y ∈ m_map (assign_all (new "A") [(5, 6, "B"); (7, 8, "C")]) →
        1 ≤ y.1) ∧
  no_adjacent_equal
    (m_map (assign (assign_all (new "A") [(5, 6, "B"); (7, 8, "C")])
              1 3 "B")).
Proof.
  assert (∀ y : entry,
            y ∈ m_map (assign_all (new "A") [(5, 6, "B"); (7, 8, "C")]) →
            1 ≤ y.1) as Hall.
  { intros y Hy. vm_compute in Hy. elem_cases Hy; simpl; lia. }
  split_and!; [lia|done|].
  apply (assign_full_no_adjacent_equal "A" [(5, 6, "B"); (7, 8, "C")] 1 3 "B");
    [lia|by left].
Defined.

Lemma lookup_greatest_breakpoint_witness :
  ordered (m_map imap_57) ∧ greatest_upto (m_map imap_57) 6 (5, "B") ∧
  lookup imap_57 6 = "B" ∧ lookup imap_57 2 = "A".
Proof.
  assert (ordered (m_map imap_57)) as Hord by ordered_by_computation.
  assert (greatest_upto (m_map imap_57) 6 (5, "B")) as Hx.
  { split_and!; [by left|simpl; lia|].
    intros y Hy. vm_compute in Hy. elem_cases Hy; simpl; lia. }
  destruct (lookup_greatest_breakpoint imap_57 6 Hord) as (Hfloor & _ & _).
  destruct (lookup_greatest_breakpoint imap_57 2 Hord) as (_ & Hdefault & _).
  split_and!; [done..|by apply (Hfloor (5, "B"))|].
  apply Hdefault. intros y Hy. vm_compute in Hy. elem_cases Hy; simpl; lia.
Defined.

Lemma assign_empty_interval_witness :
  3 >= 1 ∧ assign imap_57 3 1 "X" = imap_57 ∧
  ∀ k, lookup (assign imap_57 3 1 "X") k = lookup imap_57 k.
Proof.
  split; [lia|]. apply (assign_empty_interval imap_57 3 1 "X"). lia.
Defined.

Lemma assign_extends_previous_witness :
  ordered (m_map imap_57) ∧ 6 < 8 ∧
  greatest_below (m_map imap_57) 6 (5, "B") ∧
  m_map (assign imap_57 6 8 "B") = [(5, "B")] ∧
  lookup (assign imap_57 6 8 "B") 100 = "B".
Proof.
  assert (ordered (m_map imap_57)) as Hord by ordered_by_computation.
  assert (greatest_below (m_map imap_57) 6 (5, "B")) as Hx.
  { split_and!; [by left|simpl; lia|].
    intros y Hy. vm_compute in Hy. elem_cases Hy; simpl; lia. }
  destruct (assign_extends_previous imap_57 6 8 "B" (5, "B") Hord)
    as (_ & Hmap & Hread); [lia|done|done|].
  split_and!; [done|lia|done|by rewrite Hmap|].
  apply Hread; [lia|]. intros y Hy. vm_compute in Hy. elem_cases Hy; simpl; lia.
Defined.

Lemma assign_without_right_neighbour_witness :
  ordered (m_map imap_57) ∧ 8 < 10 ∧
  (∀ y, y ∈ m_map imap_57 → y.1 < 10) ∧
  greatest_below (m_map imap_57) 8 (7, "C") ∧
  lookup (assign imap_57 8 10 "D") 100 = "D".
Proof.
  assert (ordered (m_map imap_57)) as Hord by ordered_by_computation.
  assert (∀ y : entry, y ∈ m_map imap_57 → y.1 < 10) as Hright.
  { intros y Hy. vm_compute in Hy. elem_cases Hy; simpl; lia. }
  assert (greatest_below (m_map imap_57) 8 (7, "C")) as Hx.
  { split_and!; [by right; left|simpl; lia|].
    intros y Hy. vm_compute in Hy. elem_cases Hy; simpl; lia. }
  split_and!; [done|lia|done|done|].
  apply (assign_without_right_neighbour imap_57 8 10 "D" 100);
    [done|lia|done| |lia].
  right. exists (7, "C"). split; [done|]. simpl. congruence.
Defined.

(** ** The further properties at concrete maps *)

Lemma assign_keeps_left_witness :
  ordered (m_map imap_57) ∧ 5 < 6 ∧
  lookup (assign imap_57 6 9 "D") 5 = lookup imap_57 5.
Proof.
  assert (ordered (m_map imap_57)) as Hord by ordered_by_computation.
  split_and!; [done|lia|].
  apply (assign_keeps_left imap_57 6 9 "D" 5); [done|lia].
Defined.

Lemma assign_keeps_right_witness :
  ordered (m_map imap_57) ∧ 1 < 3 ∧ (5, "B") ∈ m_map imap_57 ∧ 3 ≤ 5 ≤ 6 ∧
  lookup (assign imap_57 1 3 "D") 6 = lookup imap_57 6.
Proof.
  assert (ordered (m_map imap_57)) as Hord by ordered_by_computation.
  assert ((5, "B") ∈ m_map imap_57) as Hin by (by left).
  split_and!; [done|lia|done|lia|lia|].
  apply (assign_keeps_right imap_57 1 3 "D" 6 (5, "B")); [done|lia|done|].
  simpl. lia.
Defined.

Lemma assign_gap_reads_next_witness :
  ordered (m_map imap_57) ∧ 1 < 3 ∧
  (∀ y, y ∈ m_map imap_57 → 1 ≤ y.1) ∧
  least_from (m_map imap_57) 3 (5, "B") ∧ 3 ≤ 4 < 5 ∧
  lookup imap_57 4 = "A" ∧ lookup (assign imap_57 1 3 "D") 4 = "B".
Proof.
  assert (ordered (m_map imap_57)) as Hord by ordered_by_computation.
  assert (∀ y : entry, y ∈ m_map imap_57 → 1 ≤ y.1) as Hall.
  { intros y Hy. vm_compute in Hy. elem_cases Hy; simpl; lia. }
  assert (least_from (m_map imap_57) 3 (5, "B")) as Hx.
  { split_and!; [by left|simpl; lia|].
    intros y Hy. vm_compute in Hy. elem_cases Hy; simpl; lia. }
  split_and!; [done|lia|done|done|lia|lia|reflexivity|].
  apply (assign_gap_reads_next imap_57 1 3 "D" (5, "B") 4);
    [done|lia|by left|done|simpl; lia].
Defined.

Lemma lookup_left_of_all_assigns_witness :
  (∀ c : Z * Z * ascii, c ∈ [(5, 6, "B"); (7, 8, "C")] → 2 < c.1.1) ∧
  lookup (assign_all (new "A") [(5, 6, "B"); (7, 8, "C")]) 2 = "A".
Proof.
  assert (∀ c : Z * Z * ascii, c ∈ [(5, 6, "B"); (7, 8, "C")] → 2 < c.1.1)
    as Hcalls.
  { intros c Hc. elem_cases Hc; simpl; lia. }
  split; [done|].
  by apply (lookup_left_of_all_assigns "A" [(5, 6, "B"); (7, 8, "C")] 2).
Defined.

Lemma assign_breakpoints_origin_witness :
  ordered (m_map imap_57) ∧ 1 < 3 ∧
  (3, "B") ∈ m_map (assign imap_57 1 3 "D") ∧
  (((3, "B") ∈ m_map imap_57 ∧ ((3, "B").1 < 1 ∨ 3 ≤ (3, "B").1)) ∨
   (3, "B") = (1, "D") ∨
   ((3, "B").1 = 3 ∧ ∃ x, x ∈ m_map imap_57 ∧ 3 < x.1 ∧ (3, "B").2 = x.2)).
Proof.
  assert (ordered (m_map imap_57)) as Hord by ordered_by_computation.
  assert ((3, "B") ∈ m_map (assign imap_57 1 3 "D")) as Hin
    by (by right; left).
  split_and!; [done|lia|done|].
  apply (assign_breakpoints_origin imap_57 1 3 "D" (3, "B")); [done|lia|done].
Defined.

Lemma assign_length_witness :
  ordered (m_map imap_57) ∧
  (length (m_map (assign imap_57 1 3 "D")) ≤ length (m_map imap_57) + 2)%nat.
Proof.
  assert (ordered (m_map imap_57)) as Hord by ordered_by_computation.
  split; [done|]. by apply (assign_length imap_57 1 3 "D").
Defined.

Lemma canonicalize_fixpoint_witness :
  no_adjacent_equal [(1, "B"); (5, "C")] ∧
  canonicalize [(1, "B"); (5, "C")] = [(1, "B"); (5, "C")].
Proof.
  assert (no_adjacent_equal [(1, "B"); (5, "C")]) as Hm by (by simpl).
  split; [done|]. by apply (canonicalize_fixpoint [(1, "B"); (5, "C")]).
Defined.

Lemma assign_extends_previous_twice_witness :
  ordered (m_map imap_57) ∧ 6 < 8 ∧
  greatest_below (m_map imap_57) 6 (5, "B") ∧
  assign (assign imap_57 6 8 "B") 6 8 "B" = assign imap_57 6 8 "B".
Proof.
  assert (ordered (m_map imap_57)) as Hord by ordered_by_computation.
  assert (greatest_below (m_map imap_57) 6 (5, "B")) as Hx.
  { split_and!; [by left|simpl; lia|].
    intros y Hy. vm_compute in Hy. elem_cases Hy; simpl; lia. }
  split_and!; [done|lia|done|].
  apply (assign_extends_previous_twice imap_57 6 8 "B" (5, "B"));
    [done|lia|done|done].
Defined.

Lemma lookup_constant_between_witness :
  5 ≤ 6 ∧ (∀ y, y ∈ m_map imap_57 → ¬ (5 < y.1 ≤ 6)) ∧
  lookup imap_57 5 = lookup imap_57 6.
Proof.
  assert (∀ y : entry, y ∈ m_map imap_57 → ¬ (5 < y.1 ≤ 6)) as Hnone.
  { intros y Hy. vm_compute in Hy. elem_cases Hy; simpl; lia. }
  split_and!; [lia|done|].
  apply (lookup_constant_between imap_57 5 6); [lia|done].
Defined.

Lemma assign_stores_keyBegin_witness :
  ordered (m_map imap_57) ∧ 1 < 3 ∧
  (∀ y, y ∈ m_map imap_57 → 1 ≤ y.1) ∧
  (1, "D") ∈ m_map (assign imap_57 1 3 "D").
Proof.
  assert (ordered (m_map imap_57)) as Hord by ordered_by_computation.
  assert (∀ y : entry, y ∈ m_map imap_57 → 1 ≤ y.1) as Hall.
  { intros y Hy. vm_compute in Hy. elem_cases Hy; simpl; lia. }
  split_and!; [done|lia|done|].
  apply (assign_stores_keyBegin imap_57 1 3 "D"); [done|lia|by left].
Defined.

Lemma assign_twice_when_next_differs_witness :
  ordered (m_map imap_57) ∧
  (∀ x, least_from (m_map imap_57) 3 x → x.2 ≠ "D") ∧
  assign (assign imap_57 1 3 "D") 1 3 "D" = assign imap_57 1 3 "D".
Proof.
  assert (ordered (m_map imap_57)) as Hord by ordered_by_computation.
  assert (∀ x, least_from (m_map imap_57) 3 x → x.2 ≠ "D") as Hnext.
  { intros x (Hin & _ & _). vm_compute in Hin. elem_cases Hin; simpl; congruence. }
  split_and!; [done..|].
  by apply (assign_twice_when_next_differs imap_57 1 3 "D").
Defined.

Lemma assign_canonical_witness :
  ordered (m_map imap_57) ∧ 1 < 3 ∧
  (∀ x, head (m_map imap_57) = Some x → x.2 ≠ m_valBegin imap_57) ∧
  (∀ y, y ∈ m_map imap_57 → 1 ≤ y.1) ∧ "D" ≠ m_valBegin imap_57 ∧
  canonical (assign imap_57 1 3 "D").
Proof.
  assert (ordered (m_map imap_57)) as Hord by ordered_by_computation.
  assert (∀ x, head (m_map imap_57) = Some x → x.2 ≠ m_valBegin imap_57)
    as Hfirst.
  { intros x [= <-]. simpl. congruence. }
  assert (∀ y : entry, y ∈ m_map imap_57 → 1 ≤ y.1) as Hall.
  { intros y Hy. vm_compute in Hy. elem_cases Hy; simpl; lia. }
  assert ("D" ≠ m_valBegin imap_57) as Hd by (simpl; congruence).
  split_and!; [done|lia|done..|].
  apply (assign_canonical imap_57 1 3 "D"); [done|lia|done|by left].
Defined.

Lemma assign_extends_previous_canonical_witness :
  ordered (m_map imap_57) ∧ 6 < 7 ∧ canonical imap_57 ∧
  greatest_below (m_map imap_57) 6 (5, "B") ∧
  (∀ y, least_from (m_map imap_57) 7 y → y.2 ≠ "B") ∧
  canonical (assign imap_57 6 7 "B").
Proof.
  assert (ordered (m_map imap_57)) as Hord by ordered_by_computation.
  assert (canonical imap_57) as Hcan.
  { vm_compute. split_and!; [congruence..|done]. }
  assert (greatest_below (m_map imap_57) 6 (5, "B")) as Hx.
  { split_and!; [by left|simpl; lia|].
    intros y Hy. vm_compute in Hy. elem_cases Hy; simpl; lia. }
  assert (∀ y, least_from (m_map imap_57) 7 y → y.2 ≠ "B") as Hnext.
  { intros y (Hin & Hle & _). vm_compute in Hin.
    elem_cases Hin; simpl in *; [lia|congruence]. }
  split_and!; [done|lia|done..|].
  apply (assign_extends_previous_canonical imap_57 6 7 "B" (5, "B"));
    [done|lia|done..].
Defined.
